(** * Steel Mill Slab Design: waste profile and partition evaluator

    A shallow embedding of [steel_mill_slab_design_problem.py].

    Python integers are unbounded and are modelled by [Z].  Python lists are
    Rocq lists; an index is a [Z], negative indices wrap around and an index
    out of range raises [IndexError], as in Python.  Python sets of integers
    are [gset Z].  The penalties are computed in Python as [1e6 * k] for an
    integer [k]: binary64 represents every integer of magnitude below 2^53
    exactly, so on that range the float arithmetic coincides with the integer
    arithmetic used here, and the penalty unit is the integer [1000000]. *)

From Stdlib Require Import Sorting.Sorted.
From stdpp Require Import base numbers list list_numbers gmap sets.

Local Open Scope Z_scope.

(** ** Python primitives *)

Module Py.

(** The exceptions the modelled code can raise.  [sys.exit(1)] raises
    [SystemExit]; [next] on an exhausted iterator raises [StopIteration]. *)
Inductive exn := IndexError | SystemExit | StopIteration.

Inductive result (A : Type) :=
| Ok (a : A)
| Raise (e : exn).
Arguments Ok {A} a.
Arguments Raise {A} e.

#[global] Instance result_ret : MRet result := λ A a, Ok a.
#[global] Instance result_bind : MBind result := λ A B k r,
  match r with
  | Ok a => k a
  | Raise e => Raise e
  end.

(** [len(l)] *)
Definition len {A} (l : list A) : Z := Z.of_nat (length l).

(** [l[i]] *)
Definition getitem {A} (l : list A) (i : Z) : result A :=
  let j := if i <? 0 then len l + i else i in
  if (0 <=? j) && (j <? len l) then
    match l !! Z.to_nat j with
    | Some x => Ok x
    | None => Raise IndexError
    end
  else Raise IndexError.

(** [l[i] = v] *)
Definition setitem {A} (l : list A) (i : Z) (v : A) : result (list A) :=
  let j := if i <? 0 then len l + i else i in
  if (0 <=? j) && (j <? len l) then Ok (<[Z.to_nat j := v]> l)
  else Raise IndexError.

(** [range(lo, hi)] *)
Definition range (lo hi : Z) : list Z := seqZ lo (hi - lo).

(** [[x] * n] *)
Definition list_mul {A} (x : A) (n : Z) : list A := replicate (Z.to_nat n) x.

(** [sum(l)]: a left fold from [0]. *)
Definition sum (l : list Z) : Z := foldl Z.add 0 l.

End Py.

Import Py.

(** ** Waste profile builder *)

(** The inner loop [for content in range(prev_size + 1, size)], over the
    list of the contents still to visit. *)
Fixpoint fill_waste (waste_for_content : list Z) (size : Z) (contents : list Z)
  : result (list Z) :=
  match contents with
  | [] => Ok waste_for_content
  | content :: rest =>
      w ← setitem waste_for_content content (size - content) ;
      fill_waste w size rest
  end.

(** The outer loop [for size in slab_sizes], threading [waste_for_content]
    and [prev_size].  The message printed before [sys.exit(1)] is not
    modelled. *)
Fixpoint sizes_loop (waste_for_content : list Z) (prev_size : Z) (slab_sizes : list Z)
  : result (list Z) :=
  match slab_sizes with
  | [] => Ok waste_for_content
  | size :: rest =>
      if size <? prev_size then Raise SystemExit
      else
        w ← fill_waste waste_for_content size (range (prev_size + 1) size) ;
        sizes_loop w size rest
  end.

Definition pre_compute_waste_for_content (slab_sizes : list Z) (sum_size_orders : Z)
  : result (list Z) :=
  sizes_loop (list_mul 0 (sum_size_orders + 1)) 0 slab_sizes.

(** ** The problem instance *)

Record SteelMillSlabDesignProblem := {
  nb_slab_sizes : Z;
  slab_sizes : list Z;
  max_size : Z;
  nb_colors : Z;
  nb_orders : Z;
  nb_slabs : Z;
  quantities_data : list Z;
  colors_data : list Z;
  sum_size_orders : Z;
  waste_for_content : list Z;
  nb_colors_max_slab : Z
}.

(** [next(it)] on an iterator over a list of tokens: the iterator is the
    list of the tokens not yet consumed. *)
Definition next (it : list Z) : result (Z * list Z) :=
  match it with
  | [] => Raise StopIteration
  | tok :: it' => Ok (tok, it')
  end.

(** [[int(next(it)) for _ in range(n)]] *)
Fixpoint read_sizes (n : nat) (it : list Z) : result (list Z * list Z) :=
  match n with
  | O => Ok ([], it)
  | S n' =>
      '(tok, it1) ← next it;
      '(toks, it2) ← read_sizes n' it1;
      Ok (tok :: toks, it2)
  end.

(** The loop reading the orders: [n] iterations left, threading the two
    lists, the running sum and the iterator. *)
Fixpoint read_orders (n : nat) (quantities colors : list Z) (total : Z) (it : list Z)
  : result (list Z * list Z * Z) :=
  match n with
  | O => Ok (quantities, colors, total)
  | S n' =>
      '(qty, it1) ← next it;
      '(col, it2) ← next it1;
      read_orders n' (quantities ++ [qty]) (colors ++ [col]) (total + qty) it2
  end.

(** [__init__], from the tokens [read_integers] returns. *)
Definition init (tokens : list Z) : result SteelMillSlabDesignProblem :=
  '(nb_sizes, it1) ← next tokens;
  '(sizes, it2) ← read_sizes (Z.to_nat nb_sizes) it1;
  max ← getitem sizes (-1);
  '(colors_count, it3) ← next it2;
  '(orders_count, it4) ← next it3;
  '(quantities, colors, total) ← read_orders (Z.to_nat orders_count) [] [] 0 it4;
  waste ← pre_compute_waste_for_content sizes total;
  Ok {| nb_slab_sizes := nb_sizes;
        slab_sizes := sizes;
        max_size := max;
        nb_colors := colors_count;
        nb_orders := orders_count;
        nb_slabs := orders_count;
        quantities_data := quantities;
        colors_data := colors;
        sum_size_orders := total;
        waste_for_content := waste;
        nb_colors_max_slab := 2 |}.

(** ** Slab partition evaluator *)

(** The penalty unit [1e6]. *)
Definition PENALTY_UNIT : Z := 1000000.

(** The three accumulators of [evaluate_solution]. *)
Record eval_state := {
  penalty : Z;
  used_slab_waste : Z;
  orders_in_candidate : list Z
}.

(** The state before the first slab. *)
Definition initial_state : eval_state :=
  {| penalty := 0; used_slab_waste := 0; orders_in_candidate := [] |}.

(** [len] of a Python set. *)
Definition set_len (s : gset Z) : Z := Z.of_nat (size s).

(** One iteration of [for slab in candidate]. *)
Definition process_slab (self : SteelMillSlabDesignProblem) (st : eval_state)
    (slab : list Z) : result eval_state :=
  let orders := orders_in_candidate st ++ slab in
  if len slab =? 0 then
    Ok {| penalty := penalty st;
          used_slab_waste := used_slab_waste st;
          orders_in_candidate := orders |}
  else
    cols ← mapM (getitem (colors_data self)) slab;
    let slab_colors : gset Z := list_to_set cols in
    let penalty1 :=
      if nb_colors_max_slab self <? set_len slab_colors
      then penalty st + PENALTY_UNIT * (set_len slab_colors - nb_colors_max_slab self)
      else penalty st in
    qtys ← mapM (getitem (quantities_data self)) slab;
    let content := sum qtys in
    let penalty2 :=
      if max_size self <? content
      then penalty1 + PENALTY_UNIT * (content - max_size self)
      else penalty1 in
    waste ← (if content <? len (waste_for_content self)
             then getitem (waste_for_content self) content
             else Ok (max_size self - content));
    Ok {| penalty := penalty2;
          used_slab_waste := used_slab_waste st + waste;
          orders_in_candidate := orders |}.

(** The loop [for slab in candidate]. *)
Fixpoint slabs_loop (self : SteelMillSlabDesignProblem) (st : eval_state)
    (candidate : list (list Z)) : result eval_state :=
  match candidate with
  | [] => Ok st
  | slab :: rest =>
      st' ← process_slab self st slab;
      slabs_loop self st' rest
  end.

Definition evaluate_solution (self : SteelMillSlabDesignProblem)
    (candidate : list (list Z)) : result Z :=
  st ← slabs_loop self initial_state candidate;
  let penalty' :=
    if bool_decide ((list_to_set (orders_in_candidate st) : gset Z)
                    ≠ list_to_set (range 0 (nb_orders self)))
    then penalty st + PENALTY_UNIT
    else penalty st in
  Ok (used_slab_waste st + penalty').

(** ** Grouping of a random assignment *)

(** [enumerate(l)] *)
Definition enumerate {A} (l : list A) : list (Z * A) := zip (seqZ 0 (len l)) l.

(** [slabs[slab_id].append(order)]: the slab at [slab_id] grows in place. *)
Definition append_order (slabs : list (list Z)) (slab_id order : Z)
  : result (list (list Z)) :=
  slab ← getitem slabs slab_id;
  setitem slabs slab_id (slab ++ [order]).

(** The loop [for order, slab_id in enumerate(assignment)]. *)
Fixpoint place_orders (slabs : list (list Z)) (enumerated : list (Z * Z))
  : result (list (list Z)) :=
  match enumerated with
  | [] => Ok slabs
  | (order, slab_id) :: rest =>
      slabs' ← append_order slabs slab_id order;
      place_orders slabs' rest
  end.

(** [random_solution] after its first line: [assignment] is the list of the
    [nb_orders] values that [random.randint(0, nb_slabs - 1)] returned; the
    orders are grouped by the slab drawn for them.  The draws themselves are
    not modelled. *)
Definition group_by_slab (self : SteelMillSlabDesignProblem) (assignment : list Z)
  : result (list (list Z)) :=
  place_orders (replicate (Z.to_nat (nb_slabs self)) []) (enumerate assignment).

(** ** Vocabulary of the statements *)

(** The entry the builder leaves at content [c], given the entry [old] it
    started with: the first size at or above [c] decides. *)
Definition entry_after (sizes : list Z) (prev c : Z) (old : option Z) : option Z :=
  if decide (c ≤ prev) then old
  else match find (Z.leb c) sizes with
       | Some s => if decide (s = c) then old else Some (s - c)
       | None => old
       end.

(** Every content the builder writes lies within the table. *)
Definition gaps_fit (sizes : list Z) (ub : Z) : Prop :=
  ∀ c, 0 < c → c ∉ sizes → (∃ s, s ∈ sizes ∧ c < s) → c ≤ ub.

(** [sum] as a right fold, the form the proofs use. *)
Definition Zsum (l : list Z) : Z := foldr Z.add 0 l.

(** What the evaluator relies on in an instance. *)
Record built (P : SteelMillSlabDesignProblem) : Prop := {
  built_quantities : length (quantities_data P) = Z.to_nat (nb_orders P);
  built_colors : length (colors_data P) = Z.to_nat (nb_orders P);
  built_sum : sum_size_orders P = Zsum (quantities_data P);
  built_table : length (waste_for_content P) = Z.to_nat (sum_size_orders P + 1);
  built_max : 0 ≤ max_size P;
  built_limit : nb_colors_max_slab P = 2
}.

(** The quantities the statements speak about, for a slab whose entries are
    order indices in [0 .. nb_orders - 1]. *)
Definition quantity_of (P : SteelMillSlabDesignProblem) (i : Z) : Z :=
  quantities_data P !!! Z.to_nat i.

Definition color_of (P : SteelMillSlabDesignProblem) (i : Z) : Z :=
  colors_data P !!! Z.to_nat i.

(** Content of a slab: the sum of the quantities of its orders. *)
Definition content_of (P : SteelMillSlabDesignProblem) (slab : list Z) : Z :=
  Zsum (quantity_of P <$> slab).

(** Number of distinct colors among the orders of a slab. *)
Definition color_count (P : SteelMillSlabDesignProblem) (slab : list Z) : Z :=
  set_len (list_to_set (color_of P <$> slab)).

(** [WasteTable[c]] *)
Definition table_waste (P : SteelMillSlabDesignProblem) (c : Z) : Z :=
  waste_for_content P !!! Z.to_nat c.

Definition color_penalty (P : SteelMillSlabDesignProblem) (slab : list Z) : Z :=
  if 2 <? color_count P slab then PENALTY_UNIT * (color_count P slab - 2) else 0.

Definition overflow_penalty (P : SteelMillSlabDesignProblem) (slab : list Z) : Z :=
  if max_size P <? content_of P slab
  then PENALTY_UNIT * (content_of P slab - max_size P) else 0.

(** Waste of a slab as the evaluator computes it: a table lookup when the
    content is within the table, the fallback otherwise. *)
Definition slab_waste (P : SteelMillSlabDesignProblem) (slab : list Z) : Z :=
  match slab with
  | [] => 0
  | _ => if content_of P slab <? len (waste_for_content P)
         then table_waste P (content_of P slab)
         else max_size P - content_of P slab
  end.

Definition slab_penalty (P : SteelMillSlabDesignProblem) (slab : list Z) : Z :=
  match slab with
  | [] => 0
  | _ => color_penalty P slab + overflow_penalty P slab
  end.

(** What the coverage test adds: the sets of the listed orders and of
    [range(nb_orders)] are compared. *)
Definition coverage_penalty (P : SteelMillSlabDesignProblem)
    (candidate : list (list Z)) : Z :=
  if bool_decide ((list_to_set (concat candidate) : gset Z)
                  ≠ list_to_set (range 0 (nb_orders P)))
  then PENALTY_UNIT else 0.

(** All entries of a slab are order indices. *)
Definition indices_ok (P : SteelMillSlabDesignProblem) (slab : list Z) : Prop :=
  ∀ i, i ∈ slab → 0 ≤ i < nb_orders P.

(** The instance with slab sizes [100] and the orders (60, 1) and (50, 1),
    as the tokens of its file and as the object [__init__] builds. *)
Definition scenario_tokens : list Z := [1; 100; 1; 2; 60; 1; 50; 1].

Definition scenario : SteelMillSlabDesignProblem :=
  {| nb_slab_sizes := 1; slab_sizes := [100]; max_size := 100;
     nb_colors := 1; nb_orders := 2; nb_slabs := 2;
     quantities_data := [60; 50]; colors_data := [1; 1];
     sum_size_orders := 110;
     waste_for_content :=
       0 :: ((λ c, 100 - c) <$> seqZ 1 99) ++ replicate 11 0;
     nb_colors_max_slab := 2 |}.

(** Slab sizes [5; 10], three colors, orders (4,1) (6,2) (5,3). *)
Definition sample_tokens : list Z := [2; 5; 10; 3; 3; 4; 1; 6; 2; 5; 3].

Definition sample : SteelMillSlabDesignProblem :=
  {| nb_slab_sizes := 2; slab_sizes := [5; 10]; max_size := 10;
     nb_colors := 3; nb_orders := 3; nb_slabs := 3;
     quantities_data := [4; 6; 5]; colors_data := [1; 2; 3];
     sum_size_orders := 15;
     waste_for_content := [0; 4; 3; 2; 1; 0; 4; 3; 2; 1; 0; 0; 0; 0; 0; 0];
     nb_colors_max_slab := 2 |}.

(** The tokens of an instance file, in the format [__init__] reads: the
    slab sizes, the number of colors, and the orders as (quantity, color). *)
Definition instance_tokens (sizes : list Z) (colors_count : Z)
    (orders : list (Z * Z)) : list Z :=
  len sizes :: sizes ++ colors_count :: len orders ::
  flat_map (λ o, [o.1; o.2]) orders.


(** * Properties *)

(** ** Python primitives *)

Lemma bind_Ok {A B} (r : result A) (k : A → result B) (b : B) :
  r ≫= k = Ok b → ∃ a, r = Ok a ∧ k a = Ok b.
Proof. destruct r as [a|e]; [by exists a | discriminate]. Qed.

Lemma setitem_in_range {A} (l : list A) (i : Z) (v : A) :
  0 ≤ i < len l → setitem l i v = Ok (<[Z.to_nat i := v]> l).
Proof.
  intros [Hlo Hhi]. unfold setitem.
  destruct (Z.ltb_spec i 0) as [|_]; [lia|].
  destruct (Z.leb_spec 0 i); [|lia].
  destruct (Z.ltb_spec i (len l)); [done | lia].
Qed.

Lemma setitem_raises {A} (l : list A) (i : Z) (v : A) (e : exn) :
  setitem l i v = Raise e → e = IndexError.
Proof. unfold setitem. case_match; congruence. Qed.

Lemma getitem_in_range {A} (l : list A) (i : Z) :
  0 ≤ i < len l → ∃ x, getitem l i = Ok x ∧ l !! Z.to_nat i = Some x.
Proof.
  intros [Hlo Hhi]. unfold getitem.
  destruct (Z.ltb_spec i 0) as [|_]; [lia|].
  destruct (Z.leb_spec 0 i); [|lia].
  destruct (Z.ltb_spec i (len l)); [|lia]. simpl.
  destruct (lookup_lt_is_Some_2 l (Z.to_nat i)) as [x Hx]; [unfold len in *; lia|].
  exists x. by rewrite Hx.
Qed.

(** ** The waste profile builder *)

Lemma fill_waste_spec (size : Z) (contents : list Z) : ∀ w : list Z,
  (∀ c, c ∈ contents → 0 ≤ c < len w) →
  ∃ w', fill_waste w size contents = Ok w' ∧ length w' = length w ∧
    ∀ c, 0 ≤ c →
      (c ∈ contents → w' !! Z.to_nat c = Some (size - c)) ∧
      (c ∉ contents → w' !! Z.to_nat c = w !! Z.to_nat c).
Proof.
  induction contents as [|c0 rest IH]; intros w Hin.
  - exists w. split; [done|]. split; [done|]. intros c _. split; [|done].
    intros H; by apply elem_of_nil in H.
  - assert (Hc0 : 0 ≤ c0 < len w) by (apply Hin; left).
    simpl. rewrite setitem_in_range by done. simpl.
    destruct (IH (<[Z.to_nat c0 := size - c0]> w)) as (w' & Hrun & Hlen & Hval).
    { intros c Hc. unfold len. rewrite length_insert. apply Hin. by right. }
    exists w'. split; [done|]. split; [by rewrite Hlen, length_insert|].
    intros c Hc. destruct (Hval c Hc) as [Hyes Hno]. split.
    + intros Hmem. destruct (decide (c ∈ rest)) as [|Hnot]; [by apply Hyes|].
      apply elem_of_cons in Hmem as [->|]; [|done].
      rewrite Hno by done. apply list_lookup_insert_eq. unfold len in *; lia.
    + intros Hnot. apply not_elem_of_cons in Hnot as [Hne Hnot].
      rewrite Hno by done. apply list_lookup_insert_ne. lia.
Qed.

Lemma fill_waste_raises (size : Z) (contents : list Z) : ∀ (w : list Z) (e : exn),
  fill_waste w size contents = Raise e → e = IndexError.
Proof.
  induction contents as [|c0 rest IH]; intros w e; simpl; [discriminate|].
  destruct (setitem w c0 (size - c0)) as [w1|e1] eqn:Hset; simpl.
  - apply IH.
  - intros [= <-]. by eapply setitem_raises.
Qed.

Lemma sizes_loop_raises (sizes : list Z) : ∀ (w : list Z) (prev : Z) (e : exn),
  sizes_loop w prev sizes = Raise e → e = SystemExit ∨ e = IndexError.
Proof.
  induction sizes as [|s rest IH]; intros w prev e; simpl; [discriminate|].
  case_match; [intros [= <-]; by left|].
  destruct (fill_waste w s _) as [w1|e1] eqn:Hfill; simpl.
  - apply IH.
  - intros [= <-]. right. by eapply fill_waste_raises.
Qed.

Lemma sizes_loop_spec (sizes : list Z) : ∀ (prev : Z) (w : list Z),
  0 ≤ prev →
  StronglySorted Z.le (prev :: sizes) →
  (∀ c, prev < c → c ∉ sizes → (∃ s, s ∈ sizes ∧ c < s) → c < len w) →
  ∃ w', sizes_loop w prev sizes = Ok w' ∧ length w' = length w ∧
    ∀ c, 0 ≤ c →
      w' !! Z.to_nat c = entry_after sizes prev c (w !! Z.to_nat c).
Proof.
  induction sizes as [|s rest IH]; intros prev w Hprev Hsorted Hfit.
  - exists w. split; [done|]. split; [done|]. intros c Hc.
    unfold entry_after; simpl. by case_decide.
  - apply StronglySorted_inv in Hsorted as [Hsorted Hall].
    apply Forall_cons in Hall as [Hps Hprest].
    assert (Hsrest : Forall (Z.le s) rest)
      by (by apply StronglySorted_inv in Hsorted as [_ ?]).
    simpl. destruct (Z.ltb_spec s prev) as [|_]; [lia|].
    destruct (fill_waste_spec s (range (prev + 1) s) w) as (w1 & Hfill & Hlen1 & Hval1).
    { intros c Hc. apply elem_of_seqZ in Hc. split; [lia|].
      apply Hfit; [lia| |exists s; split; [left|lia]].
      intros Hmem. apply elem_of_cons in Hmem as [->|Hmem]; [lia|].
      rewrite Forall_forall in Hsrest. specialize (Hsrest c Hmem). lia. }
    rewrite Hfill; simpl.
    destruct (IH s w1) as (w' & Hrun & Hlen & Hval); [lia|done| |].
    { intros c Hc Hnot (s' & Hs' & Hlt). unfold len. rewrite Hlen1.
      apply Hfit; [lia| |exists s'; split; [by right|done]].
      intros Hmem. apply elem_of_cons in Hmem as [->|]; [lia|done]. }
    exists w'. split; [done|]. split; [congruence|].
    intros c Hc. rewrite (Hval c Hc). destruct (Hval1 c Hc) as [Hyes Hno].
    unfold entry_after; simpl.
    destruct (decide (c ≤ prev)) as [Hle|Hgt].
    + rewrite decide_True by lia. apply Hno.
      unfold range. rewrite elem_of_seqZ. lia.
    + destruct (Z.leb_spec c s) as [Hcs|Hcs].
      * rewrite decide_True by lia.
        destruct (decide (s = c)) as [->|Hne].
        -- apply Hno. unfold range. rewrite elem_of_seqZ. lia.
        -- apply Hyes. unfold range. rewrite elem_of_seqZ. lia.
      * rewrite decide_False by lia.
        rewrite Hno by (unfold range; rewrite elem_of_seqZ; lia).
        done.
Qed.

Lemma find_first_above (c : Z) (sizes : list Z) :
  StronglySorted Z.le sizes →
  match find (Z.leb c) sizes with
  | Some s => s ∈ sizes ∧ c ≤ s ∧ ∀ s', s' ∈ sizes → c ≤ s' → s ≤ s'
  | None => ∀ s', s' ∈ sizes → s' < c
  end.
Proof.
  induction 1 as [|s rest Hsorted IH Hall]; simpl.
  - intros s' Hs'. by apply elem_of_nil in Hs'.
  - destruct (Z.leb_spec c s) as [Hle|Hlt].
    + split; [left|]. split; [done|].
      intros s' Hs' _. apply elem_of_cons in Hs' as [->|Hs']; [lia|].
      rewrite Forall_forall in Hall. by apply Hall.
    + destruct (find (Z.leb c) rest) as [s0|].
      * destruct IH as (Hin & Hle & Hmin). split; [by right|]. split; [done|].
        intros s' Hs' Hcs'. apply elem_of_cons in Hs' as [->|Hs']; [lia|].
        by apply Hmin.
      * intros s' Hs'. apply elem_of_cons in Hs' as [->|Hs']; [done|].
        by apply IH.
Qed.

Lemma lookup_list_mul {A} (x : A) (n c : Z) :
  0 ≤ c < n → list_mul x n !! Z.to_nat c = Some x.
Proof. intros Hc. unfold list_mul. apply lookup_replicate_2. lia. Qed.



Lemma sizes_loop_descending (l1 : list Z) : ∀ (w : list Z) (prev a b : Z) (l2 : list Z),
  b < a → ∃ e, sizes_loop w prev (l1 ++ a :: b :: l2) = Raise e.
Proof.
  induction l1 as [|x l1 IH]; intros w prev a b l2 Hlt; simpl.
  - case_match; [by eexists|].
    destruct (fill_waste w a _) as [w1|e1]; simpl; [|by eexists].
    destruct (Z.ltb_spec b a); [by eexists | lia].
  - case_match; [by eexists|].
    destruct (fill_waste w x _) as [w1|e1]; simpl; [by apply IH | by eexists].
Qed.


Lemma setitem_length {A} (l l' : list A) (i : Z) (v : A) :
  setitem l i v = Ok l' → length l' = length l.
Proof.
  unfold setitem. case_match; [|discriminate].
  intros [= <-]. apply length_insert.
Qed.

Lemma fill_waste_length (size : Z) (contents : list Z) : ∀ w w' : list Z,
  fill_waste w size contents = Ok w' → length w' = length w.
Proof.
  induction contents as [|c0 rest IH]; intros w w'; simpl.
  - by intros [= <-].
  - intros Hrun. apply bind_Ok in Hrun as (w1 & Hset & Hrun).
    rewrite (IH _ _ Hrun). by eapply setitem_length.
Qed.

Lemma sizes_loop_Ok (sizes : list Z) : ∀ (w w' : list Z) (prev : Z),
  sizes_loop w prev sizes = Ok w' →
  length w' = length w ∧ Forall (Z.le prev) sizes.
Proof.
  induction sizes as [|s rest IH]; intros w w' prev; simpl.
  - intros [= <-]. by split.
  - destruct (Z.ltb_spec s prev) as [|Hle]; [discriminate|].
    intros Hrun. apply bind_Ok in Hrun as (w1 & Hfill & Hrun).
    destruct (IH _ _ _ Hrun) as [Hlen Hall]. split.
    + rewrite Hlen. by eapply fill_waste_length.
    + constructor; [done|]. eapply Forall_impl; [exact Hall|].
      intros; simpl in *; lia.
Qed.

(** ** The instance [__init__] builds *)

Lemma foldl_add (l : list Z) : ∀ a, foldl Z.add a l = a + Zsum l.
Proof.
  induction l as [|x l IH]; intros a; simpl; [lia|].
  rewrite IH. unfold Zsum; simpl. lia.
Qed.

Lemma sum_Zsum (l : list Z) : sum l = Zsum l.
Proof. unfold sum. by rewrite foldl_add. Qed.

Lemma Zsum_app (l k : list Z) : Zsum (l ++ k) = Zsum l + Zsum k.
Proof. induction l as [|x l IH]; simpl; [done|]. unfold Zsum in *; simpl. lia. Qed.

Lemma Zsum_nonneg (l : list Z) : Forall (Z.le 0) l → 0 ≤ Zsum l.
Proof. induction 1; unfold Zsum in *; simpl; lia. Qed.

Lemma Zsum_Permutation (l k : list Z) : l ≡ₚ k → Zsum l = Zsum k.
Proof. induction 1; unfold Zsum in *; simpl; lia. Qed.

Lemma read_orders_spec (n : nat) : ∀ (qs cs : list Z) (t : Z) (it : list Z) qs' cs' t',
  read_orders n qs cs t it = Ok (qs', cs', t') →
  length qs' = (length qs + n)%nat ∧ length cs' = (length cs + n)%nat ∧
  t' - Zsum qs' = t - Zsum qs.
Proof.
  induction n as [|n IH]; intros qs cs t it qs' cs' t'; simpl.
  - intros [= <- <- <-]. repeat split; lia.
  - destruct it as [|qty [|col it]]; simpl; try discriminate.
    intros Hrun. apply IH in Hrun as (Hq & Hc & Ht).
    rewrite !length_app in *; simpl in *. rewrite Zsum_app in Ht.
    unfold Zsum in Ht at 3; simpl in Ht. repeat split; lia.
Qed.

Lemma getitem_Ok_elem {A} (l : list A) (i : Z) (x : A) :
  getitem l i = Ok x → x ∈ l.
Proof.
  unfold getitem. case_match; [|discriminate].
  destruct (l !! _) eqn:Hl; [|discriminate].
  intros [= <-]. by eapply list_elem_of_lookup_2.
Qed.

Lemma init_built (tokens : list Z) (P : SteelMillSlabDesignProblem) :
  init tokens = Ok P → built P.
Proof.
  unfold init. intros H.
  apply bind_Ok in H as ([nb_sizes it1] & _ & H).
  apply bind_Ok in H as ([sizes it2] & _ & H).
  apply bind_Ok in H as (max & Hmax & H).
  apply bind_Ok in H as ([colors_count it3] & _ & H).
  apply bind_Ok in H as ([orders_count it4] & _ & H).
  apply bind_Ok in H as ([[quantities colors] total] & Hread & H).
  apply bind_Ok in H as (waste & Hwaste & H).
  injection H as <-.
  apply read_orders_spec in Hread as (Hq & Hc & Ht).
  apply sizes_loop_Ok in Hwaste as [Hlen Hall].
  split; simpl; try done.
  - unfold Zsum in Ht at 2; simpl in Ht. lia.
  - rewrite Hlen. unfold list_mul. by rewrite length_replicate.
  - apply getitem_Ok_elem in Hmax. rewrite Forall_forall in Hall. by apply Hall.
Qed.

(** ** The evaluator *)

Lemma mapM_getitem (l : list Z) (slab : list Z) :
  (∀ i, i ∈ slab → 0 ≤ i < len l) →
  mapM (getitem l) slab = Ok ((λ i, l !!! Z.to_nat i) <$> slab).
Proof.
  induction slab as [|i slab IH]; intros Hin; [done|].
  simpl. destruct (getitem_in_range l i) as (x & Hget & Hx); [apply Hin; left|].
  rewrite Hget; simpl. rewrite IH by (intros j Hj; apply Hin; by right). simpl.
  by rewrite (list_lookup_total_correct _ _ _ Hx).
Qed.

Lemma slab_penalty_cons (P : SteelMillSlabDesignProblem) (slab : list Z) :
  slab ≠ [] → slab_penalty P slab = color_penalty P slab + overflow_penalty P slab.
Proof. by destruct slab. Qed.

Lemma slab_waste_cons (P : SteelMillSlabDesignProblem) (slab : list Z) :
  slab ≠ [] →
  slab_waste P slab =
    if content_of P slab <? len (waste_for_content P)
    then table_waste P (content_of P slab)
    else max_size P - content_of P slab.
Proof. by destruct slab. Qed.

Lemma process_slab_cons (P : SteelMillSlabDesignProblem) (st : eval_state)
    (slab : list Z) :
  built P → indices_ok P slab → slab ≠ [] → 0 ≤ content_of P slab →
  process_slab P st slab =
    Ok {| penalty := penalty st + slab_penalty P slab;
          used_slab_waste := used_slab_waste st + slab_waste P slab;
          orders_in_candidate := orders_in_candidate st ++ slab |}.
Proof.
  intros HP Hin Hne Hpos. unfold process_slab.
  rewrite slab_penalty_cons, slab_waste_cons by done.
  destruct (Z.eqb_spec (len slab) 0) as [Hlen|_].
  { destruct slab; [done | unfold len in Hlen; simpl in Hlen; lia]. }
  rewrite (mapM_getitem (colors_data P)); simpl.
  2:{ intros i Hi. unfold len. rewrite (built_colors P HP).
      specialize (Hin i Hi). lia. }
  rewrite (mapM_getitem (quantities_data P)); simpl.
  2:{ intros i Hi. unfold len. rewrite (built_quantities P HP).
      specialize (Hin i Hi). lia. }
  rewrite sum_Zsum, (built_limit P HP).
  fold (quantity_of P) (color_of P).
  change (Zsum (quantity_of P <$> slab)) with (content_of P slab).
  change (set_len (list_to_set (color_of P <$> slab))) with (color_count P slab).
  unfold color_penalty, overflow_penalty.
  destruct (Z.ltb_spec (content_of P slab) (len (waste_for_content P))) as [Hlt|Hge].
  - destruct (getitem_in_range (waste_for_content P) (content_of P slab))
      as (x & Hget & Hx); [lia|].
    rewrite Hget; simpl. unfold table_waste.
    rewrite (list_lookup_total_correct _ _ _ Hx).
    do 2 f_equal. repeat case_match; lia.
  - simpl. do 2 f_equal. repeat case_match; lia.
Qed.

Lemma process_slab_nil (P : SteelMillSlabDesignProblem) (st : eval_state) :
  process_slab P st [] =
    Ok {| penalty := penalty st;
          used_slab_waste := used_slab_waste st;
          orders_in_candidate := orders_in_candidate st ++ [] |}.
Proof. done. Qed.

Lemma content_of_nonneg (P : SteelMillSlabDesignProblem) (slab : list Z) :
  Forall (Z.le 0) (quantities_data P) → 0 ≤ content_of P slab.
Proof.
  intros Hq. apply Zsum_nonneg, Forall_fmap, Forall_forall. intros i _.
  unfold quantity_of. simpl.
  destruct (quantities_data P !! Z.to_nat i) as [q|] eqn:Hl.
  - rewrite (list_lookup_total_correct _ _ _ Hl).
    rewrite Forall_forall in Hq. apply Hq. by eapply list_elem_of_lookup_2.
  - rewrite list_lookup_total_alt, Hl. done.
Qed.

Lemma slabs_loop_spec (P : SteelMillSlabDesignProblem) (candidate : list (list Z)) :
  built P → Forall (Z.le 0) (quantities_data P) →
  indices_ok P (concat candidate) →
  ∀ st, slabs_loop P st candidate =
    Ok {| penalty := penalty st + Zsum (slab_penalty P <$> candidate);
          used_slab_waste := used_slab_waste st + Zsum (slab_waste P <$> candidate);
          orders_in_candidate := orders_in_candidate st ++ concat candidate |}.
Proof.
  intros HP Hq. induction candidate as [|slab rest IH]; intros Hin st; simpl.
  - destruct st; simpl. f_equal. f_equal; try (unfold Zsum, fmap; simpl; lia).
    by rewrite app_nil_r.
  - assert (Hslab : indices_ok P slab)
      by (intros i Hi; apply Hin; simpl; apply elem_of_app; by left).
    assert (Hrest : indices_ok P (concat rest))
      by (intros i Hi; apply Hin; simpl; apply elem_of_app; by right).
    destruct (decide (slab = [])) as [->|Hne].
    + rewrite process_slab_nil; simpl. rewrite IH by done; simpl.
      f_equal. f_equal; try (unfold Zsum, fmap; simpl; lia).
      by rewrite app_nil_r.
    + rewrite process_slab_cons by (done || by apply content_of_nonneg).
      simpl. rewrite IH by done; simpl.
      f_equal. f_equal; try (unfold Zsum, fmap; simpl; lia).
      by rewrite app_assoc.
Qed.

(** The loop collects the orders of every slab it gets through. *)
Lemma slabs_loop_orders (P : SteelMillSlabDesignProblem) (candidate : list (list Z)) :
  ∀ st st', slabs_loop P st candidate = Ok st' →
  orders_in_candidate st' = orders_in_candidate st ++ concat candidate.
Proof.
  induction candidate as [|slab rest IH]; intros st st'; simpl.
  - intros [= <-]. by rewrite app_nil_r.
  - intros Hrun. apply bind_Ok in Hrun as (st1 & Hstep & Hrun).
    rewrite (IH _ _ Hrun), app_assoc. f_equal.
    unfold process_slab in Hstep. case_match.
    + by injection Hstep as <-.
    + apply bind_Ok in Hstep as (? & _ & Hstep).
      apply bind_Ok in Hstep as (? & _ & Hstep).
      apply bind_Ok in Hstep as (? & _ & Hstep).
      by injection Hstep as <-.
Qed.

Lemma elem_of_concat {A} (x : A) (ls : list (list A)) :
  x ∈ concat ls ↔ ∃ l, l ∈ ls ∧ x ∈ l.
Proof.
  rewrite list_elem_of_In, in_concat. split.
  - intros (l & Hl & Hx). exists l. by rewrite !list_elem_of_In.
  - intros (l & Hl & Hx). exists l. by rewrite <- !list_elem_of_In.
Qed.

Lemma NoDup_concat_elem {A} (ls : list (list A)) (l : list A) :
  NoDup (concat ls) → l ∈ ls → NoDup l.
Proof.
  induction ls as [|l0 ls IH]; simpl; intros Hnd Hl.
  - by apply elem_of_nil in Hl.
  - apply NoDup_app in Hnd as (Hl0 & _ & Hls).
    apply elem_of_cons in Hl as [->|Hl]; [done | by apply IH].
Qed.

Lemma fmap_lookup_total_seq (q : list Z) :
  (λ i : nat, q !!! i) <$> seq 0 (length q) = q.
Proof.
  apply list_eq. intros i. rewrite list_lookup_fmap.
  destruct (decide (i < length q)%nat) as [Hlt|Hge].
  - rewrite lookup_seq_lt by done. simpl.
    destruct (lookup_lt_is_Some_2 q i Hlt) as [x Hx].
    by rewrite (list_lookup_total_correct _ _ _ Hx).
  - rewrite lookup_seq_ge by lia. simpl. symmetry. apply lookup_ge_None. lia.
Qed.

(** A slab that lists no order twice holds at most the whole demand. *)
Lemma content_le_sum (P : SteelMillSlabDesignProblem) (slab : list Z) :
  built P → Forall (Z.le 0) (quantities_data P) →
  indices_ok P slab → NoDup slab →
  content_of P slab ≤ sum_size_orders P.
Proof.
  intros HP Hq Hin Hnd. rewrite (built_sum P HP).
  set (q := quantities_data P) in *.
  assert (Hidx : NoDup (Z.to_nat <$> slab)).
  { apply NoDup_fmap_2_strong; [|done].
    intros x y Hx Hy Hxy. pose proof (Hin x Hx). pose proof (Hin y Hy). lia. }
  assert (Hsub : Z.to_nat <$> slab ⊆+ seq 0 (length q)).
  { apply NoDup_submseteq; [done|]. intros k Hk.
    apply list_elem_of_fmap in Hk as (i & -> & Hi). specialize (Hin i Hi).
    apply elem_of_seq. unfold q. rewrite (built_quantities P HP). lia. }
  apply submseteq_Permutation in Hsub as [k Hk].
  replace (Zsum q) with (Zsum ((λ i : nat, q !!! i) <$> seq 0 (length q)))
    by (by rewrite fmap_lookup_total_seq).
  rewrite (Zsum_Permutation _ ((λ i : nat, q !!! i) <$> ((Z.to_nat <$> slab) ++ k)))
    by (by apply fmap_Permutation).
  rewrite fmap_app, Zsum_app, <- list_fmap_compose.
  assert (0 ≤ Zsum ((λ i : nat, q !!! i) <$> k)); [|unfold content_of, quantity_of, q, compose in *; lia].
  apply Zsum_nonneg, Forall_fmap, Forall_forall. intros i _. simpl.
  destruct (q !! i) as [x|] eqn:Hl.
  - rewrite (list_lookup_total_correct _ _ _ Hl).
    rewrite Forall_forall in Hq. apply Hq. by eapply list_elem_of_lookup_2.
  - rewrite list_lookup_total_alt, Hl. done.
Qed.

Lemma len_table (P : SteelMillSlabDesignProblem) :
  built P → Forall (Z.le 0) (quantities_data P) →
  len (waste_for_content P) = sum_size_orders P + 1.
Proof.
  intros HP Hq. unfold len. rewrite (built_table P HP).
  pose proof (Zsum_nonneg _ Hq). rewrite (built_sum P HP). lia.
Qed.

(** The coverage test of the evaluator compares two sets. *)
Lemma covered_iff (orders : list Z) (n : Z) :
  (list_to_set orders : gset Z) = list_to_set (range 0 n) ↔
  ∀ i, i ∈ orders ↔ 0 ≤ i < n.
Proof.
  rewrite set_eq. unfold range. split; intros H i; specialize (H i).
  - rewrite !elem_of_list_to_set, elem_of_seqZ in H. rewrite H. lia.
  - rewrite !elem_of_list_to_set, elem_of_seqZ, H. lia.
Qed.

Lemma evaluate_solution_spec (P : SteelMillSlabDesignProblem) (candidate : list (list Z)) :
  built P → Forall (Z.le 0) (quantities_data P) →
  indices_ok P (concat candidate) →
  evaluate_solution P candidate =
    Ok (Zsum (slab_waste P <$> candidate) +
        (Zsum (slab_penalty P <$> candidate) + coverage_penalty P candidate)).
Proof.
  intros HP Hq Hin. unfold evaluate_solution, coverage_penalty.
  rewrite slabs_loop_spec by done. simpl. f_equal. case_bool_decide; lia.
Qed.

Lemma Zsum_cons (x : Z) (l : list Z) : Zsum (x :: l) = x + Zsum l.
Proof. done. Qed.


Lemma gaps_fit_bound (sizes : list Z) (ub : Z) :
  Forall (λ s, s ≤ ub + 1) sizes → gaps_fit sizes ub.
Proof.
  intros Hall c _ _ (s & Hs & Hlt). rewrite Forall_forall in Hall.
  specialize (Hall s Hs). simpl in Hall. lia.
Qed.

Lemma Zsum_fmap_zero {A} (f : A → Z) (l : list A) :
  (∀ x, x ∈ l → f x = 0) → Zsum (f <$> l) = 0.
Proof.
  induction l as [|x l IH]; intros H; [done|].
  rewrite fmap_cons. unfold Zsum in *; simpl.
  rewrite (H x) by left. rewrite IH; [done|]. intros y Hy. apply H. by right.
Qed.

Lemma Zsum_slab_waste_table (P : SteelMillSlabDesignProblem) (candidate : list (list Z)) :
  (∀ slab, slab ∈ candidate → content_of P slab < len (waste_for_content P)) →
  Zsum (slab_waste P <$> candidate) =
  Zsum ((λ slab, table_waste P (content_of P slab))
          <$> filter (λ slab, slab ≠ []) candidate).
Proof.
  induction candidate as [|slab rest IH]; intros H; [done|].
  rewrite fmap_cons, filter_cons.
  assert (IH' := IH (λ s Hs, H s (list_elem_of_further _ _ _ Hs))).
  destruct (decide (slab ≠ [])) as [Hne|Heq].
  - rewrite fmap_cons. unfold Zsum in *; simpl. rewrite IH'. f_equal.
    rewrite slab_waste_cons by done.
    specialize (H slab (list_elem_of_here _ _)).
    by destruct (Z.ltb_spec (content_of P slab) (len (waste_for_content P))); [|lia].
  - destruct slab; [|by destruct Heq]. unfold Zsum in *; simpl. by rewrite IH'.
Qed.

(** The source expressions for the content and the colors of a slab agree
    with [content_of] and [color_count] on slabs of order indices. *)
Lemma content_of_source (P : SteelMillSlabDesignProblem) (slab : list Z) :
  built P → indices_ok P slab →
  (qtys ← mapM (getitem (quantities_data P)) slab; mret (sum qtys))
  = Ok (content_of P slab).
Proof.
  intros HP Hin. rewrite mapM_getitem; simpl; [by rewrite sum_Zsum|].
  intros i Hi. unfold len. rewrite (built_quantities P HP).
  specialize (Hin i Hi). lia.
Qed.

Lemma color_count_source (P : SteelMillSlabDesignProblem) (slab : list Z) :
  built P → indices_ok P slab →
  (cols ← mapM (getitem (colors_data P)) slab; mret (set_len (list_to_set cols)))
  = Ok (color_count P slab).
Proof.
  intros HP Hin. rewrite mapM_getitem; simpl; [done|].
  intros i Hi. unfold len. rewrite (built_colors P HP).
  specialize (Hin i Hi). lia.
Qed.

(** ** Sample instances *)

Lemma sample_init : init sample_tokens = Ok sample.
Proof. vm_compute. reflexivity. Qed.

(** Case analysis on membership in an explicit list. *)
Ltac list_cases H :=
  repeat (apply elem_of_cons in H as [->|H]);
  try (by apply elem_of_nil in H).

(** * The waste profile builder: claims *)




(** C8.  For every list of slab sizes with a descending adjacent pair, the
    builder does not return a table: it ends in [SystemExit] (the
    [sys.exit(1)] of the order check) or, when an earlier write already fell
    outside the table, in [IndexError]. *)
Theorem descending_sizes_fail (sizes : list Z) (ub : Z) (i : nat) (a b : Z) :
  sizes !! i = Some a → sizes !! S i = Some b → b < a →
  pre_compute_waste_for_content sizes ub = Raise SystemExit ∨
  pre_compute_waste_for_content sizes ub = Raise IndexError.
Proof.
  intros Ha Hb Hlt.
  assert (Hsplit : sizes = take i sizes ++ a :: b :: drop (S (S i)) sizes).
  { rewrite <- (take_drop_middle sizes i a Ha) at 1. do 2 f_equal.
    by apply drop_S. }
  unfold pre_compute_waste_for_content. rewrite Hsplit.
  destruct (sizes_loop_descending (take i sizes) (list_mul 0 (ub + 1)) 0 a b
              (drop (S (S i)) sizes) Hlt) as [e He].
  rewrite He. destruct (sizes_loop_raises _ _ _ _ He) as [->| ->]; auto.
Qed.

Lemma descending_sizes_fail_witness :
  pre_compute_waste_for_content [50; 30] 100 = Raise SystemExit ∨
  pre_compute_waste_for_content [50; 30] 100 = Raise IndexError.
Proof.
  apply (descending_sizes_fail [50; 30] 100 0 50 30); [reflexivity|reflexivity|lia].
Defined.




(** * The slab partition evaluator: claims *)

(** C1 (as amended).  On the instance with slab sizes [100] and the orders
    (60, 1) and (50, 1), the candidate [[0, 1]] costs 10,000,000: the
    overflow penalty 1,000,000 × 10, and a waste of 0 read from the table,
    whose 111 entries include the content 110. *)
Theorem overflow_scenario_cost :
  init scenario_tokens = Ok scenario ∧
  slab_sizes scenario = [100] ∧
  quantities_data scenario = [60; 50] ∧ colors_data scenario = [1; 1] ∧
  max_size scenario = 100 ∧ content_of scenario [0; 1] = 110 ∧
  len (waste_for_content scenario) = 111 ∧
  getitem (waste_for_content scenario) 110 = Ok 0 ∧
  evaluate_solution scenario [[0; 1]] = Ok (PENALTY_UNIT * 10 + 0) ∧
  evaluate_solution scenario [[0; 1]] = Ok 10000000.
Proof. repeat split; vm_compute; reflexivity. Qed.

(** C1, counterexample: the cost of that candidate is not 9,999,990. *)
Lemma overflow_scenario_counterexample :
  (P ← init scenario_tokens; evaluate_solution P [[0; 1]]) ≠ Ok 9999990.
Proof. vm_compute. discriminate. Qed.

(** C2, the evaluator at a candidate that lists order 0 in two slabs and
    still shows every order: sizes [10], orders (4, 1) and (6, 1), candidate
    [[0], [0, 1]].  The cost is the waste 6 + 0 alone; no coverage penalty
    is added. *)
Theorem duplicated_order_not_penalised :
  (P ← init [1; 10; 1; 2; 4; 1; 6; 1]; evaluate_solution P [[0]; [0; 1]]) = Ok 6.
Proof. vm_compute. reflexivity. Qed.

(** C4.  A candidate that lists every order index [0 .. nb_orders - 1]
    exactly once, whose slabs all hold at most [max_size] and at most 2
    distinct colors, costs exactly the sum of [WasteTable[content]] over its
    nonempty slabs; every such lookup is within the table. *)
Theorem feasible_candidate_cost (tokens : list Z) (P : SteelMillSlabDesignProblem)
    (candidate : list (list Z)) :
  init tokens = Ok P →
  Forall (Z.le 0) (quantities_data P) →
  (∀ i, i ∈ concat candidate ↔ 0 ≤ i < nb_orders P) →
  NoDup (concat candidate) →
  (∀ slab, slab ∈ candidate → content_of P slab ≤ max_size P) →
  (∀ slab, slab ∈ candidate → color_count P slab ≤ 2) →
  evaluate_solution P candidate =
    Ok (Zsum ((λ slab, table_waste P (content_of P slab))
                <$> filter (λ slab, slab ≠ []) candidate))
  ∧ ∀ slab, slab ∈ candidate →
      0 ≤ content_of P slab < len (waste_for_content P).
Proof.
  intros Hinit Hq Hcover Hnd Hcap Hcol. apply init_built in Hinit as HP.
  assert (Hin : indices_ok P (concat candidate)) by (intros i Hi; by apply Hcover).
  assert (Hbound : ∀ slab, slab ∈ candidate →
            0 ≤ content_of P slab < len (waste_for_content P)).
  { intros slab Hslab. split; [by apply content_of_nonneg|].
    rewrite len_table by done.
    enough (content_of P slab ≤ sum_size_orders P) by lia.
    apply content_le_sum; [done|done| |by eapply NoDup_concat_elem].
    intros i Hi. apply Hin, elem_of_concat. by exists slab. }
  split; [|done].
  rewrite evaluate_solution_spec by done. unfold coverage_penalty.
  rewrite bool_decide_eq_false_2 by (intros Hne; apply Hne; by apply covered_iff).
  rewrite Zsum_slab_waste_table by (intros slab Hslab; by apply Hbound).
  rewrite (Zsum_fmap_zero (slab_penalty P)); [by rewrite !Z.add_0_r|].
  intros slab Hslab. destruct slab as [|i0 slab']; [done|].
  unfold slab_penalty, color_penalty, overflow_penalty.
  specialize (Hcap _ Hslab). specialize (Hcol _ Hslab).
  repeat case_match; lia.
Qed.

Lemma feasible_candidate_cost_witness :
  evaluate_solution sample [[0; 1]; []; [2]] =
    Ok (Zsum ((λ slab, table_waste sample (content_of sample slab))
                <$> filter (λ slab, slab ≠ []) [[0; 1]; []; [2]]))
  ∧ ∀ slab, slab ∈ [[0; 1]; []; [2]] →
      0 ≤ content_of sample slab < len (waste_for_content sample).
Proof.
  apply (feasible_candidate_cost sample_tokens sample [[0; 1]; []; [2]]).
  - vm_compute; reflexivity.
  - repeat constructor; simpl; lia.
  - intros i. simpl. set_unfold. lia.
  - simpl. repeat (constructor; [set_unfold; lia|]). constructor.
  - intros slab Hslab. list_cases Hslab; by vm_compute.
  - intros slab Hslab. list_cases Hslab; by vm_compute.
Defined.












(** * Further properties of the waste profile builder *)

Lemma setitem_Ok_nonneg {A} (l l' : list A) (i : Z) (v : A) :
  0 ≤ i → setitem l i v = Ok l' → i < len l.
Proof.
  intros Hi. unfold setitem.
  destruct (Z.ltb_spec i 0) as [|_]; [lia|].
  destruct (Z.leb_spec 0 i); [|lia].
  destruct (Z.ltb_spec i (len l)); [done | discriminate].
Qed.

Lemma fill_waste_Ok_range (size : Z) (contents : list Z) : ∀ w w' : list Z,
  (∀ c, c ∈ contents → 0 ≤ c) →
  fill_waste w size contents = Ok w' →
  ∀ c, c ∈ contents → c < len w.
Proof.
  induction contents as [|c0 rest IH]; intros w w' Hpos Hrun c Hc.
  - by apply elem_of_nil in Hc.
  - simpl in Hrun. apply bind_Ok in Hrun as (w1 & Hset & Hrun).
    apply elem_of_cons in Hc as [->|Hc].
    + eapply setitem_Ok_nonneg; [|done]. apply Hpos. left.
    + apply setitem_length in Hset. unfold len. rewrite <- Hset.
      eapply IH; [|done|done]. intros c' Hc'. apply Hpos. by right.
Qed.

(** A run of the outer loop that returns has seen ascending sizes and has
    written inside the table only. *)
Lemma sizes_loop_Ok_inv (sizes : list Z) : ∀ (prev : Z) (w w' : list Z),
  0 ≤ prev →
  sizes_loop w prev sizes = Ok w' →
  StronglySorted Z.le (prev :: sizes) ∧
  ∀ c, prev < c → c ∉ sizes → (∃ s, s ∈ sizes ∧ c < s) → c < len w.
Proof.
  induction sizes as [|s rest IH]; intros prev w w' Hprev Hrun.
  - split; [repeat constructor|]. intros c _ _ (s & Hs & _).
    by apply elem_of_nil in Hs.
  - simpl in Hrun. destruct (Z.ltb_spec s prev) as [|Hle]; [discriminate|].
    apply bind_Ok in Hrun as (w1 & Hfill & Hrun).
    destruct (IH s w1 w') as [Hsorted Hfit]; [lia|done|].
    pose proof (fill_waste_length _ _ _ _ Hfill) as Hlen.
    split.
    + constructor; [done|]. constructor; [done|].
      apply StronglySorted_inv in Hsorted as [_ Hall].
      eapply Forall_impl; [exact Hall|]. intros; simpl in *; lia.
    + intros c Hc Hnot (s' & Hs' & Hlt).
      apply not_elem_of_cons in Hnot as [Hne Hnot].
      destruct (decide (c < s)) as [Hcs|Hcs].
      * eapply fill_waste_Ok_range; [|done|].
        -- intros c' Hc'. apply elem_of_seqZ in Hc'. lia.
        -- unfold range. apply elem_of_seqZ. lia.
      * unfold len. rewrite <- Hlen. apply Hfit; [lia|done|].
        exists s'. split; [|done].
        apply elem_of_cons in Hs' as [->|]; [lia|done].
Qed.

Lemma len_list_mul_max {A} (x : A) (n : Z) : len (list_mul x n) = Z.max 0 n.
Proof. unfold len, list_mul. rewrite length_replicate. lia. Qed.

Lemma StronglySorted_from_zero (sizes : list Z) :
  StronglySorted Z.le (0 :: sizes) ↔ Sorted Z.le sizes ∧ Forall (Z.le 0) sizes.
Proof.
  split.
  - intros H. apply StronglySorted_inv in H as [Hs Hall].
    split; [by apply StronglySorted_Sorted | done].
  - intros [Hs Hall]. constructor; [|done].
    apply Sorted_StronglySorted; [intros x y z; lia | done].
Qed.

Lemma builder_Ok_iff (sizes : list Z) (ub : Z) :
  (∃ table, pre_compute_waste_for_content sizes ub = Ok table) ↔
  Sorted Z.le sizes ∧ Forall (Z.le 0) sizes ∧ gaps_fit sizes ub.
Proof.
  unfold pre_compute_waste_for_content. split.
  - intros [table Hrun].
    apply sizes_loop_Ok_inv in Hrun as [Hsorted Hfit]; [|done].
    apply StronglySorted_from_zero in Hsorted as [Hs Hall].
    split; [done|]. split; [done|].
    intros c Hc Hnot Hex. specialize (Hfit c Hc Hnot Hex).
    rewrite len_list_mul_max in Hfit. lia.
  - intros (Hs & Hall & Hfit).
    destruct (sizes_loop_spec sizes 0 (list_mul 0 (ub + 1)))
      as (table & Hrun & _); [done| | |by exists table].
    + by apply StronglySorted_from_zero.
    + intros c Hc Hnot Hex. specialize (Hfit c Hc Hnot Hex).
      rewrite len_list_mul_max. lia.
Qed.

(** X1.  The builder returns a table exactly when the slab sizes are
    non-negative and non-decreasing and every content it writes (a positive
    value below some slab size that is not a slab size) is at most the upper
    bound; in every other case it raises. *)
Theorem builder_returns_iff (sizes : list Z) (ub : Z) :
  (∃ table, pre_compute_waste_for_content sizes ub = Ok table) ↔
  Sorted Z.le sizes ∧ Forall (Z.le 0) sizes ∧ gaps_fit sizes ub.
Proof. apply builder_Ok_iff. Qed.

(** The table of a run that returns, entry by entry. *)
Lemma builder_Ok_entries (sizes : list Z) (ub : Z) (table : list Z) :
  pre_compute_waste_for_content sizes ub = Ok table →
  StronglySorted Z.le sizes ∧
  len table = Z.max 0 (ub + 1) ∧
  ∀ c, 0 ≤ c < len table →
    table !! Z.to_nat c = entry_after sizes 0 c (Some 0).
Proof.
  unfold pre_compute_waste_for_content. intros Hrun.
  pose proof (sizes_loop_Ok_inv _ _ _ _ (Z.le_refl 0) Hrun) as [Hsorted Hfit].
  destruct (sizes_loop_spec sizes 0 (list_mul 0 (ub + 1)) (Z.le_refl 0) Hsorted Hfit)
    as (table' & Hrun' & Hlen & Hval).
  rewrite Hrun in Hrun'. injection Hrun' as <-.
  assert (Hlen' : len table = Z.max 0 (ub + 1))
    by (unfold len; rewrite Hlen; apply len_list_mul_max).
  split; [by apply StronglySorted_inv in Hsorted as [? _]|]. split; [done|].
  intros c Hc. rewrite Hval by lia.
  rewrite (lookup_list_mul 0 (ub + 1) c) by lia. done.
Qed.

Lemma table_entry_spec (sizes : list Z) (ub : Z) (table : list Z)
    (c w : Z) :
  pre_compute_waste_for_content sizes ub = Ok table →
  0 ≤ c → table !! Z.to_nat c = Some w →
  0 ≤ w ∧
  (w ≠ 0 → c + w ∈ sizes ∧ ∀ s, s ∈ sizes → c ≤ s → c + w ≤ s).
Proof.
  intros Hrun Hc Hw.
  destruct (builder_Ok_entries _ _ _ Hrun) as (Hsorted & Hlen & Hval).
  assert (Hin : 0 ≤ c < len table).
  { apply lookup_lt_Some in Hw. unfold len. lia. }
  rewrite Hval in Hw by done. unfold entry_after in Hw.
  pose proof (find_first_above c sizes Hsorted) as Hfind.
  destruct (decide (c ≤ 0)); [injection Hw as <-; by split|].
  destruct (find (Z.leb c) sizes) as [s|]; [|injection Hw as <-; by split].
  destruct Hfind as (Hmem & Hle & Hmin).
  destruct (decide (s = c)); [injection Hw as <-; by split|].
  injection Hw as <-. split; [lia|]. intros _.
  replace (c + (s - c)) with s by lia. by split.
Qed.

(** X2.  In a table the builder returns, no entry is negative, and an entry
    that is not 0 is the distance from its content to a slab size, the
    smallest one at or above that content. *)
Theorem table_entries_are_distances (sizes : list Z) (ub : Z) (table : list Z)
    (c w : Z) :
  pre_compute_waste_for_content sizes ub = Ok table →
  0 ≤ c → table !! Z.to_nat c = Some w →
  0 ≤ w ∧
  (w ≠ 0 → c + w ∈ sizes ∧ ∀ s, s ∈ sizes → c ≤ s → c + w ≤ s).
Proof. apply table_entry_spec. Qed.

Lemma table_entries_are_distances_witness :
  0 ≤ 2 ∧ (2 ≠ 0 → 6 + 2 ∈ [3; 5; 8] ∧ ∀ s, s ∈ [3; 5; 8] → 6 ≤ s → 6 + 2 ≤ s).
Proof.
  apply (table_entries_are_distances [3; 5; 8] 10
           [0; 2; 1; 0; 1; 0; 2; 1; 0; 0; 0] 6 2).
  - vm_compute; reflexivity.
  - lia.
  - reflexivity.
Defined.

(** X3.  Raising the upper bound only extends the table: when the builder
    returns a table for a bound, it returns one for every larger bound, and
    the smaller table is a prefix of the larger. *)
Theorem larger_bound_extends_table (sizes : list Z) (ub1 ub2 : Z) (t1 : list Z) :
  ub1 ≤ ub2 →
  pre_compute_waste_for_content sizes ub1 = Ok t1 →
  ∃ t2, pre_compute_waste_for_content sizes ub2 = Ok t2 ∧
        t1 = take (length t1) t2.
Proof.
  intros Hub Hrun1.
  destruct (proj1 (builder_Ok_iff sizes ub1)) as (Hs & Hall & Hfit);
    [by exists t1|].
  destruct (proj2 (builder_Ok_iff sizes ub2)) as [t2 Hrun2].
  { split; [done|]. split; [done|]. intros c Hc Hnot Hex.
    specialize (Hfit c Hc Hnot Hex). lia. }
  exists t2. split; [done|].
  destruct (builder_Ok_entries _ _ _ Hrun1) as (_ & Hlen1 & Hval1).
  destruct (builder_Ok_entries _ _ _ Hrun2) as (_ & Hlen2 & Hval2).
  apply list_eq. intros i.
  destruct (decide (i < length t1)%nat) as [Hlt|Hge].
  - rewrite lookup_take_lt by done.
    specialize (Hval1 (Z.of_nat i)). specialize (Hval2 (Z.of_nat i)).
    rewrite Nat2Z.id in Hval1, Hval2.
    rewrite Hval1, Hval2; [done| |]; unfold len in *; lia.
  - rewrite lookup_take_ge by lia. apply lookup_ge_None. lia.
Qed.

Lemma larger_bound_extends_table_witness :
  ∃ t2, pre_compute_waste_for_content [3; 5; 8] 12 = Ok t2 ∧
        [0; 2; 1; 0; 1; 0; 2; 1; 0; 0; 0]
        = take (length [0; 2; 1; 0; 1; 0; 2; 1; 0; 0; 0]) t2.
Proof.
  apply (larger_bound_extends_table [3; 5; 8] 10 12).
  - lia.
  - vm_compute; reflexivity.
Defined.

(** * Further properties of [__init__] *)

Lemma next_app (it it' extra : list Z) (tok : Z) :
  next it = Ok (tok, it') → next (it ++ extra) = Ok (tok, it' ++ extra).
Proof. destruct it; [discriminate|]. by intros [= -> ->]. Qed.

Lemma read_sizes_app (n : nat) : ∀ (it it' extra toks : list Z),
  read_sizes n it = Ok (toks, it') →
  read_sizes n (it ++ extra) = Ok (toks, it' ++ extra).
Proof.
  induction n as [|n IH]; intros it it' extra toks; simpl.
  - by intros [= <- <-].
  - intros H. apply bind_Ok in H as ([tok it1] & Hnext & H).
    apply bind_Ok in H as ([toks' it2] & Hrest & H). injection H as <- <-.
    rewrite (next_app _ _ extra _ Hnext). simpl.
    by rewrite (IH _ _ extra _ Hrest).
Qed.

Lemma read_orders_app (n : nat) : ∀ (qs cs : list Z) (t : Z) (it extra : list Z) r,
  read_orders n qs cs t it = Ok r →
  read_orders n qs cs t (it ++ extra) = Ok r.
Proof.
  induction n as [|n IH]; intros qs cs t it extra r; simpl; [done|].
  destruct it as [|qty [|col it]]; simpl; try discriminate. apply IH.
Qed.

Lemma init_app (tokens extra : list Z) (P : SteelMillSlabDesignProblem) :
  init tokens = Ok P → init (tokens ++ extra) = Ok P.
Proof.
  unfold init. intros H.
  apply bind_Ok in H as ([nb_sizes it1] & H1 & H).
  apply bind_Ok in H as ([sizes it2] & H2 & H).
  apply bind_Ok in H as (max & Hmax & H).
  apply bind_Ok in H as ([colors_count it3] & H3 & H).
  apply bind_Ok in H as ([orders_count it4] & H4 & H).
  apply bind_Ok in H as ([[quantities colors] total] & Hread & H).
  rewrite (next_app _ _ extra _ H1); simpl.
  rewrite (read_sizes_app _ _ _ extra _ H2); simpl.
  rewrite Hmax; simpl.
  rewrite (next_app _ _ extra _ H3); simpl.
  rewrite (next_app _ _ extra _ H4); simpl.
  rewrite (read_orders_app _ _ _ _ _ extra _ Hread); simpl.
  exact H.
Qed.

(** X4.  Tokens after the last order are ignored: an instance file with
    trailing integers gives the same instance. *)
Theorem init_ignores_trailing_tokens (tokens extra : list Z)
    (P : SteelMillSlabDesignProblem) :
  init tokens = Ok P → init (tokens ++ extra) = Ok P.
Proof. apply init_app. Qed.

Lemma init_ignores_trailing_tokens_witness :
  init (sample_tokens ++ [7; 7; 7]) = Ok sample.
Proof.
  apply (init_ignores_trailing_tokens sample_tokens [7; 7; 7] sample).
  vm_compute; reflexivity.
Defined.

(** X5.  A file that declares no slab size (a count of 0 or less) makes
    [__init__] raise [IndexError], at [slab_sizes[-1]], whatever follows. *)
Theorem init_without_sizes_raises (nb_sizes : Z) (rest : list Z) :
  nb_sizes ≤ 0 → init (nb_sizes :: rest) = Raise IndexError.
Proof.
  intros Hn. unfold init. simpl.
  replace (Z.to_nat nb_sizes) with 0%nat by lia. done.
Qed.

Lemma init_without_sizes_raises_witness :
  init (0 :: [3; 2; 4; 1; 6; 2]) = Raise IndexError.
Proof. apply (init_without_sizes_raises 0 [3; 2; 4; 1; 6; 2]). lia. Defined.

Lemma read_sizes_exact (l rest : list Z) :
  read_sizes (length l) (l ++ rest) = Ok (l, rest).
Proof.
  induction l as [|x l IH]; simpl; [done|]. by rewrite IH.
Qed.

Lemma read_sizes_length (n : nat) : ∀ (it it' toks : list Z),
  read_sizes n it = Ok (toks, it') → length toks = n ∧ it = toks ++ it'.
Proof.
  induction n as [|n IH]; intros it it' toks; simpl.
  - by intros [= <- <-].
  - intros H. apply bind_Ok in H as ([tok it1] & Hnext & H).
    apply bind_Ok in H as ([toks' it2] & Hrest & H). injection H as <- <-.
    destruct it; [discriminate|]. injection Hnext as -> ->.
    apply IH in Hrest as [Hlen ->]. simpl. by rewrite Hlen.
Qed.

Lemma read_orders_exact (orders : list (Z * Z)) : ∀ (qs cs : list Z) (t : Z) (rest : list Z),
  read_orders (length orders) qs cs t (flat_map (λ o, [o.1; o.2]) orders ++ rest)
  = Ok (qs ++ orders.*1, cs ++ orders.*2, t + Zsum (orders.*1)).
Proof.
  induction orders as [|[q c] orders IH]; intros qs cs t rest; simpl.
  - rewrite !app_nil_r. unfold Zsum; simpl. by rewrite Z.add_0_r.
  - rewrite IH. rewrite <- !app_assoc. simpl.
    do 2 f_equal. apply eq_sym, Z.add_assoc.
Qed.

Lemma read_orders_short (n : nat) : ∀ (qs cs : list Z) (t : Z) (it : list Z),
  (length it < 2 * n)%nat →
  read_orders n qs cs t it = Raise StopIteration.
Proof.
  induction n as [|n IH]; intros qs cs t it Hlen; simpl; [lia|].
  destruct it as [|qty [|col it]]; simpl; try done.
  apply IH. simpl in Hlen. lia.
Qed.

Lemma getitem_last {A} (l : list A) (x : A) :
  getitem l (-1) = Ok x ↔ last l = Some x.
Proof.
  unfold getitem. simpl.
  destruct l as [|y l'] using rev_ind; [done|].
  rewrite last_snoc.
  assert (Hlen : len (l' ++ [y]) = Z.of_nat (length l') + 1)
    by (unfold len; rewrite length_app; simpl; lia).
  rewrite Hlen.
  destruct (Z.leb_spec 0 (Z.of_nat (length l') + 1 + -1)); [|lia].
  destruct (Z.ltb_spec (Z.of_nat (length l') + 1 + -1) (Z.of_nat (length l') + 1));
    [|lia].
  replace (Z.to_nat (Z.of_nat (length l') + 1 + -1)) with (length l') by lia.
  simpl. rewrite list_lookup_middle by done. split; by intros [= ->].
Qed.

Lemma getitem_last_nonempty {A} (l : list A) :
  l ≠ [] → ∃ x, getitem l (-1) = Ok x ∧ last l = Some x.
Proof.
  intros Hne. destruct l as [|y l'] using rev_ind; [done|].
  exists y. split; [apply getitem_last|]; by rewrite last_snoc.
Qed.

Lemma sorted_last_max (l : list Z) (m : Z) :
  StronglySorted Z.le l → last l = Some m → ∀ s, s ∈ l → s ≤ m.
Proof.
  induction 1 as [|x l Hs IH Hall]; intros Hlast s Hin.
  - by apply elem_of_nil in Hin.
  - destruct l as [|y l'].
    + injection Hlast as <-. apply elem_of_cons in Hin as [->|Hin]; [lia|].
      by apply elem_of_nil in Hin.
    + change (last (y :: l') = Some m) in Hlast.
      apply elem_of_cons in Hin as [->|Hin]; [|by apply IH].
      rewrite Forall_forall in Hall.
      transitivity y; [apply Hall; left | apply IH; [done|left]].
Qed.

Lemma to_nat_len {A} (l : list A) : Z.to_nat (len l) = length l.
Proof. unfold len. apply Nat2Z.id. Qed.

(** X6.  Reading back an instance file: on the tokens of slab sizes (not
    empty, the last one [m]), a number of colors and a list of orders for
    which the builder returns a table, [__init__] builds the instance with
    exactly these sizes, [max_size = m], the quantities and colors of the
    orders in order, their total as [sum_size_orders], as many slabs as
    orders, and that table. *)
Theorem init_reads_instance (sizes : list Z) (colors_count : Z)
    (orders : list (Z * Z)) (m : Z) (table : list Z) :
  last sizes = Some m →
  pre_compute_waste_for_content sizes (Zsum (orders.*1)) = Ok table →
  init (instance_tokens sizes colors_count orders) =
    Ok {| nb_slab_sizes := len sizes;
          slab_sizes := sizes;
          max_size := m;
          nb_colors := colors_count;
          nb_orders := len orders;
          nb_slabs := len orders;
          quantities_data := orders.*1;
          colors_data := orders.*2;
          sum_size_orders := Zsum (orders.*1);
          waste_for_content := table;
          nb_colors_max_slab := 2 |}.
Proof.
  intros Hlast Htable. unfold init, instance_tokens. simpl.
  rewrite to_nat_len, read_sizes_exact. simpl.
  rewrite (proj2 (getitem_last sizes m) Hlast). simpl.
  rewrite to_nat_len.
  rewrite <- (app_nil_r (flat_map _ orders)), read_orders_exact, Z.add_0_l.
  cbn [mbind result_bind app]. rewrite Htable. done.
Qed.

Lemma init_reads_instance_witness :
  init (instance_tokens [5; 10] 3 [(4, 1); (6, 2); (5, 3)]) =
    Ok {| nb_slab_sizes := len [5; 10];
          slab_sizes := [5; 10];
          max_size := 10;
          nb_colors := 3;
          nb_orders := len [(4, 1); (6, 2); (5, 3)];
          nb_slabs := len [(4, 1); (6, 2); (5, 3)];
          quantities_data := [(4, 1); (6, 2); (5, 3)].*1;
          colors_data := [(4, 1); (6, 2); (5, 3)].*2;
          sum_size_orders := Zsum ([(4, 1); (6, 2); (5, 3)].*1);
          waste_for_content := [0; 4; 3; 2; 1; 0; 4; 3; 2; 1; 0; 0; 0; 0; 0; 0];
          nb_colors_max_slab := 2 |}.
Proof.
  apply (init_reads_instance [5; 10] 3 [(4, 1); (6, 2); (5, 3)] 10).
  - reflexivity.
  - vm_compute; reflexivity.
Defined.

(** X7.  A file that ends before the orders it declares: when fewer than
    [2 * nb_orders] tokens follow the order count, [__init__] raises
    [StopIteration]. *)
Theorem init_truncated_orders_raises (sizes : list Z) (colors_count : Z)
    (orders_count : nat) (rest : list Z) :
  sizes ≠ [] →
  (length rest < 2 * orders_count)%nat →
  init (len sizes :: sizes ++ colors_count :: Z.of_nat orders_count :: rest)
  = Raise StopIteration.
Proof.
  intros Hne Hshort. unfold init. simpl.
  rewrite to_nat_len, read_sizes_exact. simpl.
  destruct (getitem_last_nonempty sizes Hne) as (m & Hget & _).
  rewrite Hget. simpl. rewrite Nat2Z.id.
  by rewrite read_orders_short.
Qed.

Lemma init_truncated_orders_raises_witness :
  init (len [5; 10] :: [5; 10] ++ 3 :: Z.of_nat 3 :: [4; 1; 6; 2; 5])
  = Raise StopIteration.
Proof.
  apply (init_truncated_orders_raises [5; 10] 3 3 [4; 1; 6; 2; 5]).
  - discriminate.
  - simpl. lia.
Defined.

Lemma init_fields (tokens : list Z) (P : SteelMillSlabDesignProblem) :
  init tokens = Ok P →
  length (slab_sizes P) = Z.to_nat (nb_slab_sizes P) ∧
  getitem (slab_sizes P) (-1) = Ok (max_size P) ∧
  pre_compute_waste_for_content (slab_sizes P) (sum_size_orders P)
  = Ok (waste_for_content P) ∧
  nb_slabs P = nb_orders P.
Proof.
  unfold init. intros H.
  apply bind_Ok in H as ([nb_sizes it1] & _ & H).
  apply bind_Ok in H as ([sizes it2] & Hsizes & H).
  apply bind_Ok in H as (max & Hmax & H).
  apply bind_Ok in H as ([colors_count it3] & _ & H).
  apply bind_Ok in H as ([orders_count it4] & _ & H).
  apply bind_Ok in H as ([[quantities colors] total] & _ & H).
  apply bind_Ok in H as (waste & Hwaste & H).
  injection H as <-. simpl.
  by apply read_sizes_length in Hsizes as [-> _].
Qed.

(** X8.  In every instance [__init__] builds, there is at least one slab
    size, the sizes are non-negative and non-decreasing, and [max_size], the
    last of them, is the largest. *)
Theorem init_max_size_is_largest (tokens : list Z) (P : SteelMillSlabDesignProblem) :
  init tokens = Ok P →
  1 ≤ nb_slab_sizes P ∧
  len (slab_sizes P) = nb_slab_sizes P ∧
  Sorted Z.le (slab_sizes P) ∧
  max_size P ∈ slab_sizes P ∧
  ∀ s, s ∈ slab_sizes P → 0 ≤ s ≤ max_size P.
Proof.
  intros Hinit. apply init_fields in Hinit as (Hlen & Hmax & Htable & _).
  pose proof (getitem_Ok_elem _ _ _ Hmax) as Hmem.
  apply getitem_last in Hmax.
  destruct (proj1 (builder_Ok_iff (slab_sizes P) (sum_size_orders P)))
    as (Hsorted & Hall & _); [by eexists|].
  assert (Hne : slab_sizes P ≠ []) by (intros Heq; by rewrite Heq in Hmax).
  assert (Hpos : (0 < length (slab_sizes P))%nat)
    by (destruct (slab_sizes P); [done | simpl; lia]).
  split; [lia|]. split; [unfold len; lia|]. split; [done|]. split; [done|].
  intros s Hs. split.
  - rewrite Forall_forall in Hall. by apply Hall.
  - eapply sorted_last_max; [|done|done].
    apply Sorted_StronglySorted; [intros x y z; lia | done].
Qed.

Lemma init_max_size_is_largest_witness :
  1 ≤ nb_slab_sizes sample ∧
  len (slab_sizes sample) = nb_slab_sizes sample ∧
  Sorted Z.le (slab_sizes sample) ∧
  max_size sample ∈ slab_sizes sample ∧
  ∀ s, s ∈ slab_sizes sample → 0 ≤ s ≤ max_size sample.
Proof.
  apply (init_max_size_is_largest sample_tokens sample).
  vm_compute; reflexivity.
Defined.

(** * Further properties of the evaluator *)

Lemma process_slab_nil_id (P : SteelMillSlabDesignProblem) (st : eval_state) :
  process_slab P st [] = Ok st.
Proof. destruct st. unfold process_slab. simpl. by rewrite app_nil_r. Qed.

Lemma slabs_loop_app (P : SteelMillSlabDesignProblem) (c1 c2 : list (list Z)) :
  ∀ st, slabs_loop P st (c1 ++ c2)
        = (st' ← slabs_loop P st c1; slabs_loop P st' c2).
Proof.
  induction c1 as [|slab c1 IH]; intros st; simpl; [done|].
  destruct (process_slab P st slab) as [st1|e]; simpl; [apply IH | done].
Qed.

(** X9.  Empty slabs do not count: a candidate with an empty slab anywhere
    evaluates to the same result, cost or exception, as the candidate
    without it, on every instance. *)
Theorem empty_slab_ignored (P : SteelMillSlabDesignProblem)
    (pre post : list (list Z)) :
  evaluate_solution P (pre ++ [] :: post) = evaluate_solution P (pre ++ post).
Proof.
  unfold evaluate_solution. rewrite !slabs_loop_app.
  destruct (slabs_loop P initial_state pre) as [st|e]; [|done].
  cbn [mbind result_bind slabs_loop].
  by rewrite process_slab_nil_id.
Qed.


Lemma concat_Forall2_Permutation {A} (l k : list (list A)) :
  Forall2 (≡ₚ) l k → concat l ≡ₚ concat k.
Proof. induction 1 as [|x y l k Hxy _ IH]; simpl; [done|]. by rewrite Hxy, IH. Qed.

Lemma content_of_Permutation (P : SteelMillSlabDesignProblem) (s1 s2 : list Z) :
  s1 ≡ₚ s2 → content_of P s1 = content_of P s2.
Proof. intros H. unfold content_of. apply Zsum_Permutation. by rewrite H. Qed.

Lemma color_count_Permutation (P : SteelMillSlabDesignProblem) (s1 s2 : list Z) :
  s1 ≡ₚ s2 → color_count P s1 = color_count P s2.
Proof.
  intros H. unfold color_count.
  replace (list_to_set (color_of P <$> s1) : gset Z)
    with (list_to_set (color_of P <$> s2) : gset Z); [done|].
  apply set_eq. intros x. rewrite !elem_of_list_to_set. by rewrite H.
Qed.

Lemma slab_waste_Permutation (P : SteelMillSlabDesignProblem) (s1 s2 : list Z) :
  s1 ≡ₚ s2 → slab_waste P s1 = slab_waste P s2.
Proof.
  intros H. destruct s1 as [|i1 s1'].
  - apply Permutation_nil_l in H. by subst.
  - destruct s2 as [|i2 s2']; [by apply Permutation_nil_r in H|].
    unfold slab_waste. by rewrite (content_of_Permutation P _ _ H).
Qed.

Lemma slab_penalty_Permutation (P : SteelMillSlabDesignProblem) (s1 s2 : list Z) :
  s1 ≡ₚ s2 → slab_penalty P s1 = slab_penalty P s2.
Proof.
  intros H. destruct s1 as [|i1 s1'].
  - apply Permutation_nil_l in H. by subst.
  - destruct s2 as [|i2 s2']; [by apply Permutation_nil_r in H|].
    unfold slab_penalty, color_penalty, overflow_penalty.
    by rewrite (content_of_Permutation P _ _ H), (color_count_Permutation P _ _ H).
Qed.

Lemma Zsum_fmap_Forall2 {A} (f : A → Z) (R : A → A → Prop) (l k : list A) :
  (∀ x y, R x y → f x = f y) → Forall2 R l k → Zsum (f <$> l) = Zsum (f <$> k).
Proof.
  intros Hf. induction 1 as [|x y l k Hxy _ IH]; [done|].
  rewrite !fmap_cons, !Zsum_cons. by rewrite (Hf x y Hxy), IH.
Qed.

Lemma coverage_penalty_Permutation (P : SteelMillSlabDesignProblem)
    (c1 c2 : list (list Z)) :
  concat c1 ≡ₚ concat c2 → coverage_penalty P c1 = coverage_penalty P c2.
Proof.
  intros H. unfold coverage_penalty.
  replace (list_to_set (concat c1) : gset Z) with (list_to_set (concat c2) : gset Z);
    [done|].
  apply set_eq. intros x. rewrite !elem_of_list_to_set. by rewrite H.
Qed.

Lemma indices_ok_Permutation (P : SteelMillSlabDesignProblem) (l k : list Z) :
  l ≡ₚ k → indices_ok P l → indices_ok P k.
Proof. intros H Hl i Hi. apply Hl. by rewrite H. Qed.



(** X11.  The cost does not depend on the order of the orders inside a
    slab: two candidates of order indices whose slabs hold, one by one, the
    same orders in a different order have the same cost. *)
Theorem order_within_slab_irrelevant (tokens : list Z)
    (P : SteelMillSlabDesignProblem) (c1 c2 : list (list Z)) :
  init tokens = Ok P →
  Forall (Z.le 0) (quantities_data P) →
  indices_ok P (concat c1) →
  Forall2 (≡ₚ) c1 c2 →
  evaluate_solution P c1 = evaluate_solution P c2.
Proof.
  intros Hinit Hq Hin Hperm. apply init_built in Hinit as HP.
  pose proof (concat_Forall2_Permutation _ _ Hperm) as Hconcat.
  rewrite !evaluate_solution_spec
    by (done || by eapply indices_ok_Permutation).
  rewrite (coverage_penalty_Permutation P c1 c2 Hconcat).
  rewrite (Zsum_fmap_Forall2 (slab_waste P) (≡ₚ) c1 c2)
    by (done || apply slab_waste_Permutation).
  rewrite (Zsum_fmap_Forall2 (slab_penalty P) (≡ₚ) c1 c2)
    by (done || apply slab_penalty_Permutation).
  done.
Qed.

Lemma order_within_slab_irrelevant_witness :
  evaluate_solution sample [[0; 1]; [2]] = evaluate_solution sample [[1; 0]; [2]].
Proof.
  apply (order_within_slab_irrelevant sample_tokens sample
           [[0; 1]; [2]] [[1; 0]; [2]]).
  - vm_compute; reflexivity.
  - repeat constructor; simpl; lia.
  - intros i Hi. simpl in Hi. set_unfold in Hi. simpl. lia.
  - constructor; [apply perm_swap|]. constructor; [done|]. constructor.
Defined.











Lemma coverage_penalty_covered (P : SteelMillSlabDesignProblem)
    (candidate : list (list Z)) :
  indices_ok P (concat candidate) →
  (∀ i, 0 ≤ i < nb_orders P → i ∈ concat candidate) →
  coverage_penalty P candidate = 0.
Proof.
  intros Hin Hall. unfold coverage_penalty.
  rewrite bool_decide_eq_false_2; [done|].
  intros Hne. apply Hne, covered_iff. intros i. split; [apply Hin | apply Hall].
Qed.



Lemma table_nonneg (sizes : list Z) (ub : Z) (table : list Z) :
  pre_compute_waste_for_content sizes ub = Ok table → Forall (Z.le 0) table.
Proof.
  intros Hrun. apply Forall_lookup. intros i w Hw.
  apply (table_entry_spec sizes ub table (Z.of_nat i) w Hrun); [lia|].
  by rewrite Nat2Z.id.
Qed.

Lemma table_waste_nonneg (P : SteelMillSlabDesignProblem) (c : Z) :
  Forall (Z.le 0) (waste_for_content P) → 0 ≤ table_waste P c.
Proof.
  intros Hall. unfold table_waste.
  destruct (waste_for_content P !! Z.to_nat c) as [w|] eqn:Hl.
  - rewrite (list_lookup_total_correct _ _ _ Hl).
    rewrite Forall_forall in Hall. apply Hall. by eapply list_elem_of_lookup_2.
  - by rewrite list_lookup_total_alt, Hl.
Qed.

Lemma slab_cost_nonneg (P : SteelMillSlabDesignProblem) (slab : list Z) :
  Forall (Z.le 0) (waste_for_content P) →
  0 ≤ slab_waste P slab + slab_penalty P slab.
Proof.
  intros Hall. destruct (decide (slab = [])) as [->|Hne]; [done|].
  rewrite slab_waste_cons, slab_penalty_cons by done.
  pose proof (table_waste_nonneg P (content_of P slab) Hall) as Hw.
  assert (0 ≤ color_penalty P slab).
  { unfold color_penalty, PENALTY_UNIT.
    destruct (Z.ltb_spec 2 (color_count P slab)); lia. }
  unfold overflow_penalty, PENALTY_UNIT.
  destruct (Z.ltb_spec (content_of P slab) (len (waste_for_content P)));
    destruct (Z.ltb_spec (max_size P) (content_of P slab)); lia.
Qed.

Lemma Zsum_fmap_pair_nonneg {A} (f g : A → Z) (l : list A) :
  (∀ x, x ∈ l → 0 ≤ f x + g x) → 0 ≤ Zsum (f <$> l) + Zsum (g <$> l).
Proof.
  induction l as [|x l IH]; intros H; [done|].
  rewrite !fmap_cons, !Zsum_cons.
  pose proof (H x (list_elem_of_here _ _)).
  pose proof (IH (λ y Hy, H y (list_elem_of_further _ _ _ Hy))). lia.
Qed.

Lemma coverage_penalty_nonneg (P : SteelMillSlabDesignProblem)
    (candidate : list (list Z)) : 0 ≤ coverage_penalty P candidate.
Proof. unfold coverage_penalty, PENALTY_UNIT. case_bool_decide; lia. Qed.

(** X14.  The cost of a candidate of order indices is never negative, even
    when a slab lists an order twice and takes the fallback
    [max_size - content]: a negative fallback waste comes with an overflow
    penalty a million times its size. *)
Theorem cost_never_negative (tokens : list Z) (P : SteelMillSlabDesignProblem)
    (candidate : list (list Z)) :
  init tokens = Ok P →
  Forall (Z.le 0) (quantities_data P) →
  indices_ok P (concat candidate) →
  ∃ cost, evaluate_solution P candidate = Ok cost ∧ 0 ≤ cost.
Proof.
  intros Hinit Hq Hin. pose proof (init_built _ _ Hinit) as HP.
  apply init_fields in Hinit as (_ & _ & Htable & _).
  apply table_nonneg in Htable.
  eexists. split; [by apply evaluate_solution_spec|].
  pose proof (coverage_penalty_nonneg P candidate).
  pose proof (Zsum_fmap_pair_nonneg (slab_waste P) (slab_penalty P) candidate
                (λ slab _, slab_cost_nonneg P slab Htable)).
  lia.
Qed.

Lemma cost_never_negative_witness :
  ∃ cost, evaluate_solution sample [[0; 1; 1; 2; 2]] = Ok cost ∧ 0 ≤ cost.
Proof.
  apply (cost_never_negative sample_tokens sample [[0; 1; 1; 2; 2]]).
  - vm_compute; reflexivity.
  - repeat constructor; simpl; lia.
  - intros i Hi. simpl in Hi. set_unfold in Hi. simpl. lia.
Defined.







(** * Properties of the grouping in [random_solution] *)

Lemma append_order_in_range (slabs : list (list Z)) (slab_id order : Z) :
  0 ≤ slab_id < len slabs →
  ∃ slab, slabs !! Z.to_nat slab_id = Some slab ∧
    append_order slabs slab_id order
    = Ok (<[Z.to_nat slab_id := slab ++ [order]]> slabs).
Proof.
  intros Hid. unfold append_order.
  destruct (getitem_in_range slabs slab_id Hid) as (slab & Hget & Hl).
  exists slab. split; [done|]. rewrite Hget. simpl.
  by apply setitem_in_range.
Qed.

Lemma concat_insert_snoc {A} (ls : list (list A)) (i : nat) (l : list A) (x : A) :
  ls !! i = Some l → concat (<[i := l ++ [x]]> ls) ≡ₚ concat ls ++ [x].
Proof.
  revert i. induction ls as [|l0 ls IH]; intros i Hl; [done|].
  destruct i as [|i]; simpl in *.
  - injection Hl as ->. rewrite <- !app_assoc.
    apply Permutation_app_head, Permutation_app_comm.
  - rewrite (IH i Hl). by rewrite app_assoc.
Qed.

Lemma seqZ_len_cons {A} (k : Z) (x : A) (l : list A) :
  seqZ k (len (x :: l)) = k :: seqZ (k + 1) (len l).
Proof.
  rewrite seqZ_cons by (unfold len; simpl; lia).
  f_equal. unfold len. simpl. f_equal; lia.
Qed.

Lemma enumerate_from_cons {A} (k : Z) (x : A) (l : list A) :
  zip (seqZ k (len (x :: l))) (x :: l) = (k, x) :: zip (seqZ (k + 1) (len l)) l.
Proof. by rewrite seqZ_len_cons. Qed.

Lemma place_orders_spec (ids : list Z) : ∀ (slabs : list (list Z)) (k : Z),
  Forall (λ id, 0 ≤ id < len slabs) ids →
  ∃ slabs', place_orders slabs (zip (seqZ k (len ids)) ids) = Ok slabs' ∧
    length slabs' = length slabs ∧
    concat slabs' ≡ₚ concat slabs ++ seqZ k (len ids) ∧
    (∀ i slab x, slabs !! i = Some slab → x ∈ slab →
       ∃ slab', slabs' !! i = Some slab' ∧ x ∈ slab') ∧
    (∀ j id, ids !! j = Some id →
       ∃ slab', slabs' !! Z.to_nat id = Some slab' ∧ k + Z.of_nat j ∈ slab').
Proof.
  induction ids as [|id ids IH]; intros slabs k Hall.
  - exists slabs. split; [done|]. split; [done|].
    split; [by rewrite app_nil_r|]. split; [eauto|]. intros j id' Hj.
    by rewrite lookup_nil in Hj.
  - apply Forall_cons in Hall as [Hid Hall].
    rewrite enumerate_from_cons. simpl.
    destruct (append_order_in_range slabs id k Hid) as (slab & Hslab & Happ).
    rewrite Happ. simpl.
    set (slabs1 := <[Z.to_nat id := slab ++ [k]]> slabs).
    assert (Hlen1 : length slabs1 = length slabs) by apply length_insert.
    destruct (IH slabs1 (k + 1)) as (slabs' & Hrun & Hlen & Hperm & Hkeep & Hput).
    { eapply Forall_impl; [exact Hall|]. intros x Hx. simpl in *.
      unfold len in *. by rewrite Hlen1. }
    exists slabs'. split; [done|]. split; [congruence|]. split; [|split].
    + rewrite Hperm. unfold slabs1. rewrite (concat_insert_snoc _ _ _ _ Hslab).
      rewrite <- app_assoc. apply Permutation_app_head.
      by rewrite seqZ_len_cons.
    + intros i slab0 x Hi Hx.
      destruct (decide (i = Z.to_nat id)) as [->|Hne].
      * apply (Hkeep (Z.to_nat id) (slab ++ [k]) x).
        -- unfold slabs1. apply list_lookup_insert_eq. by eapply lookup_lt_Some.
        -- rewrite Hslab in Hi. injection Hi as <-. apply elem_of_app. by left.
      * apply (Hkeep i slab0 x); [|done].
        unfold slabs1. by rewrite list_lookup_insert_ne.
    + intros j id' Hj. destruct j as [|j]; simpl in Hj.
      * injection Hj as <-. rewrite Z.add_0_r.
        apply (Hkeep (Z.to_nat id) (slab ++ [k]) k).
        -- unfold slabs1. apply list_lookup_insert_eq. by eapply lookup_lt_Some.
        -- apply elem_of_app. right. left.
      * destruct (Hput j id' Hj) as (slab' & Hl & Hin).
        exists slab'. split; [done|].
        by replace (k + Z.of_nat (S j)) with (k + 1 + Z.of_nat j) by lia.
Qed.

Lemma concat_replicate_nil {A} (n : nat) : concat (replicate n ([] : list A)) = [].
Proof. induction n; simpl; done. Qed.

Lemma group_by_slab_spec (P : SteelMillSlabDesignProblem) (assignment : list Z) :
  Forall (λ id, 0 ≤ id ≤ nb_slabs P - 1) assignment →
  ∃ candidate, group_by_slab P assignment = Ok candidate ∧
    length candidate = Z.to_nat (nb_slabs P) ∧
    concat candidate ≡ₚ seqZ 0 (len assignment) ∧
    ∀ j id, assignment !! j = Some id →
      ∃ slab, candidate !! Z.to_nat id = Some slab ∧ Z.of_nat j ∈ slab.
Proof.
  intros Hall. unfold group_by_slab, enumerate.
  destruct (place_orders_spec assignment
              (replicate (Z.to_nat (nb_slabs P)) []) 0)
    as (cand & Hrun & Hlen & Hperm & _ & Hput).
  { eapply Forall_impl; [exact Hall|]. intros x Hx. simpl in *.
    unfold len. rewrite length_replicate. lia. }
  exists cand. split; [done|]. split; [by rewrite Hlen, length_replicate|].
  split; [by rewrite Hperm, concat_replicate_nil|].
  intros j id Hj. destruct (Hput j id Hj) as (slab & Hl & Hin).
  exists slab. split; [done|]. by rewrite Z.add_0_l in Hin.
Qed.

(** X16.  The grouping in [random_solution] yields a partition: for every
    assignment of the orders to slab numbers in [0 .. nb_slabs - 1], the
    candidate has [nb_slabs] slabs, every order index below the number of
    assigned orders is listed exactly once over all slabs, and each order is
    in the slab drawn for it. *)
Theorem group_by_slab_partition (P : SteelMillSlabDesignProblem)
    (assignment : list Z) :
  Forall (λ id, 0 ≤ id ≤ nb_slabs P - 1) assignment →
  ∃ candidate, group_by_slab P assignment = Ok candidate ∧
    length candidate = Z.to_nat (nb_slabs P) ∧
    concat candidate ≡ₚ seqZ 0 (len assignment) ∧
    ∀ j id, assignment !! j = Some id →
      ∃ slab, candidate !! Z.to_nat id = Some slab ∧ Z.of_nat j ∈ slab.
Proof. apply group_by_slab_spec. Qed.

Lemma group_by_slab_partition_witness :
  ∃ candidate, group_by_slab sample [2; 0; 2] = Ok candidate ∧
    length candidate = Z.to_nat (nb_slabs sample) ∧
    concat candidate ≡ₚ seqZ 0 (len [2; 0; 2]) ∧
    ∀ j id, [2; 0; 2] !! j = Some id →
      ∃ slab, candidate !! Z.to_nat id = Some slab ∧ Z.of_nat j ∈ slab.
Proof.
  apply (group_by_slab_partition sample [2; 0; 2]).
  repeat constructor; simpl; lia.
Defined.

(** X17.  A candidate grouped from an assignment of all [nb_orders] orders
    to slab numbers in [0 .. nb_slabs - 1] is always scored: the evaluation
    returns a cost, the coverage penalty is not applied, no slab takes the
    fallback, and the cost is the table waste and the color and overflow
    penalties of the slabs. *)
Theorem grouped_candidate_evaluates (tokens : list Z)
    (P : SteelMillSlabDesignProblem) (assignment : list Z) :
  init tokens = Ok P →
  Forall (Z.le 0) (quantities_data P) →
  length assignment = Z.to_nat (nb_orders P) →
  Forall (λ id, 0 ≤ id ≤ nb_slabs P - 1) assignment →
  ∃ candidate, group_by_slab P assignment = Ok candidate ∧
    coverage_penalty P candidate = 0 ∧
    (∀ slab, slab ∈ candidate →
       0 ≤ content_of P slab < len (waste_for_content P)) ∧
    evaluate_solution P candidate =
      Ok (Zsum ((λ slab, table_waste P (content_of P slab))
                  <$> filter (λ slab, slab ≠ []) candidate)
          + Zsum (slab_penalty P <$> candidate)).
Proof.
  intros Hinit Hq Hlen Hall. apply init_built in Hinit as HP.
  destruct (group_by_slab_spec P assignment Hall)
    as (cand & Hrun & _ & Hperm & _).
  exists cand. split; [done|].
  assert (Hmem : ∀ i, i ∈ concat cand ↔ 0 ≤ i < nb_orders P).
  { intros i. rewrite Hperm, elem_of_seqZ. unfold len. lia. }
  assert (Hin : indices_ok P (concat cand)) by (intros i Hi; by apply Hmem).
  assert (Hnd : NoDup (concat cand)) by (rewrite Hperm; apply NoDup_seqZ).
  assert (Hbound : ∀ slab, slab ∈ cand →
            0 ≤ content_of P slab < len (waste_for_content P)).
  { intros slab Hslab. split; [by apply content_of_nonneg|].
    rewrite len_table by done.
    enough (content_of P slab ≤ sum_size_orders P) by lia.
    apply content_le_sum; [done|done| |by eapply NoDup_concat_elem].
    intros i Hi. apply Hin, elem_of_concat. by exists slab. }
  assert (Hcov : coverage_penalty P cand = 0).
  { apply coverage_penalty_covered; [done|]. intros i Hi. by apply Hmem. }
  split; [done|]. split; [done|].
  rewrite evaluate_solution_spec by done.
  rewrite Hcov, Z.add_0_r.
  by rewrite Zsum_slab_waste_table by (intros slab Hslab; by apply Hbound).
Qed.

Lemma grouped_candidate_evaluates_witness :
  ∃ candidate, group_by_slab sample [2; 0; 2] = Ok candidate ∧
    coverage_penalty sample candidate = 0 ∧
    (∀ slab, slab ∈ candidate →
       0 ≤ content_of sample slab < len (waste_for_content sample)) ∧
    evaluate_solution sample candidate =
      Ok (Zsum ((λ slab, table_waste sample (content_of sample slab))
                  <$> filter (λ slab, slab ≠ []) candidate)
          + Zsum (slab_penalty sample <$> candidate)).
Proof.
  apply (grouped_candidate_evaluates sample_tokens sample [2; 0; 2]).
  - vm_compute; reflexivity.
  - repeat constructor; simpl; lia.
  - reflexivity.
  - repeat constructor; simpl; lia.
Defined.

(** * Further properties: failures of the builder, shape of an instance *)

Lemma sizes_loop_no_exit (sizes : list Z) : ∀ (w : list Z) (prev : Z),
  StronglySorted Z.le (prev :: sizes) →
  sizes_loop w prev sizes ≠ Raise SystemExit.
Proof.
  induction sizes as [|s rest IH]; intros w prev Hsorted; simpl; [discriminate|].
  apply StronglySorted_inv in Hsorted as [Hsorted Hall].
  apply Forall_cons in Hall as [Hps _].
  destruct (Z.ltb_spec s prev) as [|_]; [lia|].
  destruct (fill_waste w s _) as [w1|e1] eqn:Hfill; simpl.
  - by apply IH.
  - intros [= ->]. by apply fill_waste_raises in Hfill.
Qed.

(** X18.  With non-negative, non-decreasing slab sizes the order check never
    fires; when some content the builder writes (a positive value below a
    slab size that is not a slab size) lies above the upper bound, the
    builder raises [IndexError]. *)
Theorem table_too_short_raises (sizes : list Z) (ub c s : Z) :
  Sorted Z.le sizes → Forall (Z.le 0) sizes →
  0 < c → c ∉ sizes → s ∈ sizes → c < s → ub < c →
  pre_compute_waste_for_content sizes ub = Raise IndexError.
Proof.
  intros Hsorted Hall Hc Hnot Hs Hcs Hub.
  destruct (pre_compute_waste_for_content sizes ub) as [table|e] eqn:Hrun.
  - destruct (proj1 (builder_Ok_iff sizes ub)) as (_ & _ & Hfit); [by exists table|].
    assert (c ≤ ub) by (apply Hfit; [done|done|by exists s]). lia.
  - unfold pre_compute_waste_for_content in Hrun.
    destruct (sizes_loop_raises _ _ _ _ Hrun) as [->| ->]; [|done].
    exfalso. eapply sizes_loop_no_exit; [|exact Hrun].
    by apply StronglySorted_from_zero.
Qed.

Lemma table_too_short_raises_witness :
  pre_compute_waste_for_content [3; 5; 8] 5 = Raise IndexError.
Proof.
  apply (table_too_short_raises [3; 5; 8] 5 6 8).
  - repeat constructor; lia.
  - repeat constructor; lia.
  - lia.
  - set_unfold. lia.
  - set_unfold. lia.
  - lia.
  - lia.
Defined.

(** X19.  In every instance [__init__] builds, the quantities and the colors
    have one entry per order ([nb_orders] entries, none when [nb_orders] is
    negative), [sum_size_orders] is the sum of the quantities, the waste
    table has [sum_size_orders + 1] entries (none when that is negative),
    there are as many slabs as orders and the color limit is 2. *)
Theorem init_instance_shape (tokens : list Z) (P : SteelMillSlabDesignProblem) :
  init tokens = Ok P →
  len (quantities_data P) = Z.max 0 (nb_orders P) ∧
  len (colors_data P) = Z.max 0 (nb_orders P) ∧
  sum_size_orders P = sum (quantities_data P) ∧
  len (waste_for_content P) = Z.max 0 (sum_size_orders P + 1) ∧
  nb_slabs P = nb_orders P ∧
  nb_colors_max_slab P = 2.
Proof.
  intros Hinit. pose proof (init_built _ _ Hinit) as HP.
  apply init_fields in Hinit as (_ & _ & _ & Hslabs).
  unfold len. rewrite (built_quantities P HP), (built_colors P HP),
    (built_table P HP), sum_Zsum.
  split; [lia|]. split; [lia|]. split; [apply (built_sum P HP)|].
  split; [lia|]. split; [done | apply (built_limit P HP)].
Qed.

Lemma init_instance_shape_witness :
  len (quantities_data sample) = Z.max 0 (nb_orders sample) ∧
  len (colors_data sample) = Z.max 0 (nb_orders sample) ∧
  sum_size_orders sample = sum (quantities_data sample) ∧
  len (waste_for_content sample) = Z.max 0 (sum_size_orders sample + 1) ∧
  nb_slabs sample = nb_orders sample ∧
  nb_colors_max_slab sample = 2.
Proof.
  apply (init_instance_shape sample_tokens sample). vm_compute; reflexivity.
Defined.
